(** * The review queue of the PR reviewer bot front end

    A shallow embedding of [frontend/src/App.jsx]: the React component
    [App], its state [reviews], the three asynchronous functions
    [fetchReviews], [handleApprove] and [handleReject], and the JSX it
    renders.

    Asynchronous functions are embedded as resumptions ([Async]): a tree
    whose [Await] node holds the rest of the function as a continuation
    over the way the awaited request settles. The JavaScript event loop
    is a step function on a [World]: the component state, the console,
    the table of suspended calls keyed by the request they wait for and
    the table of settled promises. The backend and axios are the
    environment: they choose how each request settles. *)

From stdpp Require Import base gmap list strings.
From Stdlib Require Import ZArith.

Local Open Scope string_scope.
Local Open Scope nat_scope.
Local Open Scope list_scope.

(** ** Data *)

(** One element of the body of [GET /reviews]; the fields are the ones the
    component reads. *)
Module Review.
Record t : Type := Make {
  id : Z;
  pr_number : Z;
  branch : string;
  status : string;
  ai_feedback : string
}.
End Review.

Abbreviation ReviewItem := Review.t.

(** What a rejected axios promise carries: an [Error] object. axios names
    its errors [AxiosError] and attaches the HTTP status of the response
    when there was one. *)
Record JsError : Type := MkError {
  err_name : string;
  err_message : string;
  err_status : option Z
}.

(** The response object of a fulfilled axios promise. The component reads
    [res.data] of the list request only, the body of a POST is dropped. *)
Record Response : Type := MkResponse {
  data : list ReviewItem
}.

(** How an awaited promise settles. *)
Inductive Settled : Type :=
| Fulfilled (res : Response)
| Rejected (error : JsError).

(** The three URLs built from [API_URL]:
    [`${API_URL}/reviews`], [`${API_URL}/reviews/${id}/approve`] and
    [`${API_URL}/reviews/${id}/reject`]. *)
Inductive Endpoint : Type :=
| Reviews
| ReviewApprove (id : Z)
| ReviewReject (id : Z).

Inductive Request : Type :=
| AxiosGet (url : Endpoint)
| AxiosPost (url : Endpoint).

(** [const API_URL = import.meta.env.VITE_API_URL || "http://localhost:8000"]:
    an unset or empty variable falls back to the local address. *)
Definition API_URL (VITE_API_URL : option string) : string :=
  match VITE_API_URL with
  | Some url => if decide (url = "") then "http://localhost:8000" else url
  | None => "http://localhost:8000"
  end.

(** ** Asynchronous functions *)

(** The body of an async function returning [undefined]. *)
Inductive Async : Type :=
| Done
| Throw (error : JsError)
| Await (req : Request) (k : Settled → Async)
| SetReviews (value : list ReviewItem) (k : Async)
| ConsoleError (msg : string) (error : JsError) (k : Async)
| Call (f : Async) (k : Async).

(** [const res = await axios...(url); k res]: a rejection of the awaited
    promise is thrown at the [await]. *)
Definition await (req : Request) (k : Response → Async) : Async :=
  Await req (fun o =>
    match o with
    | Fulfilled res => k res
    | Rejected error => Throw error
    end).

(** [try { body } catch (error) { handler error }]. A call that is not
    awaited ([Call]) settles its own promise: its errors are not caught
    here. *)
Fixpoint try_catch (body : Async) (handler : JsError → Async) : Async :=
  match body with
  | Done => Done
  | Throw error => handler error
  | Await req k => Await req (fun o => try_catch (k o) handler)
  | SetReviews value k => SetReviews value (try_catch k handler)
  | ConsoleError msg error k => ConsoleError msg error (try_catch k handler)
  | Call f k => Call f (try_catch k handler)
  end.

Definition fetchReviews : Async :=
  try_catch
    (await (AxiosGet Reviews) (fun res =>
     SetReviews (data res) Done))
    (fun error =>
     ConsoleError "Error fetching reviews" error Done).

Definition handleApprove (id : Z) : Async :=
  await (AxiosPost (ReviewApprove id)) (fun _ =>
  Call fetchReviews Done).

Definition handleReject (id : Z) : Async :=
  await (AxiosPost (ReviewReject id)) (fun _ =>
  Call fetchReviews Done).

(** ** The event loop *)

Inductive PromiseState : Type :=
| PFulfilled
| PRejected (error : JsError).

(** What the network saw, in order. *)
Inductive NetEvent : Type :=
| Sent (n : nat) (req : Request)
| Answered (n : nat) (o : Settled).

(** A call suspended at an [await]: the promise it returned to its caller
    and the rest of its body. *)
Record Suspended : Type := MkSuspended {
  promise : nat;
  resume : Settled → Async
}.

Record World : Type := MkWorld {
  reviews : list ReviewItem;
  console : list (string * JsError);
  network : list NetEvent;
  next_request : nat;
  pending : gmap nat Suspended;
  promises : gmap nat PromiseState;
  next_promise : nat
}.

(** [useState([])], nothing called yet. *)
Definition initial : World :=
  MkWorld [] [] [] 0 ∅ ∅ 0.

Definition settle (p : nat) (st : PromiseState) (w : World) : World :=
  MkWorld (reviews w) (console w) (network w) (next_request w)
          (pending w) (<[p := st]> (promises w)) (next_promise w).

Definition suspend (p : nat) (req : Request) (k : Settled → Async) (w : World) : World :=
  MkWorld (reviews w) (console w)
          (network w ++ [Sent (next_request w) req])
          (S (next_request w))
          (<[next_request w := MkSuspended p k]> (pending w))
          (promises w) (next_promise w).

Definition setReviews (value : list ReviewItem) (w : World) : World :=
  MkWorld value (console w) (network w) (next_request w)
          (pending w) (promises w) (next_promise w).

Definition console_error (msg : string) (error : JsError) (w : World) : World :=
  MkWorld (reviews w) (console w ++ [(msg, error)]) (network w) (next_request w)
          (pending w) (promises w) (next_promise w).

Definition new_promise (w : World) : World :=
  MkWorld (reviews w) (console w) (network w) (next_request w)
          (pending w) (promises w) (S (next_promise w)).

Definition answered (n : nat) (o : Settled) (w : World) : World :=
  MkWorld (reviews w) (console w) (network w ++ [Answered n o]) (next_request w)
          (delete n (pending w)) (promises w) (next_promise w).

(** Run the body of the call whose promise is [p] up to its next [await]
    or to its end. A nested call gets a fresh promise, runs up to its own
    first [await], and the caller goes on without waiting for it. *)
Fixpoint exec (a : Async) (p : nat) (w : World) : World :=
  match a with
  | Done => settle p PFulfilled w
  | Throw error => settle p (PRejected error) w
  | Await req k => suspend p req k w
  | SetReviews value k => exec k p (setReviews value w)
  | ConsoleError msg error k => exec k p (console_error msg error w)
  | Call f k => exec k p (exec f (next_promise w) (new_promise w))
  end.

(** A call from outside an async function (an event handler, an effect). *)
Definition invoke (f : Async) (w : World) : World :=
  exec f (next_promise w) (new_promise w).

Inductive Event : Type :=
| CallFetchReviews
| CallHandleApprove (id : Z)
| CallHandleReject (id : Z)
| Settle (n : nat) (o : Settled).

Definition step (w : World) (ev : Event) : World :=
  match ev with
  | CallFetchReviews => invoke fetchReviews w
  | CallHandleApprove id => invoke (handleApprove id) w
  | CallHandleReject id => invoke (handleReject id) w
  | Settle n o =>
      match pending w !! n with
      | Some s => exec (resume s o) (promise s) (answered n o w)
      | None => w
      end
  end.

Definition run (w : World) (evs : list Event) : World :=
  foldl step w evs.

(** [useEffect(() => { fetchReviews(); }, [])]. *)
Definition mount : World := step initial CallFetchReviews.

(** ** Rendering *)

(** The two [onClick] closures of a card. *)
Inductive Handler : Type :=
| OnApprove (id : Z)
| OnReject (id : Z).

Definition click (h : Handler) : Event :=
  match h with
  | OnApprove id => CallHandleApprove id
  | OnReject id => CallHandleReject id
  end.

(** The rendered tree, without the [style] attributes. *)
#[warnings="-register-all"]
Inductive Element : Type :=
| Text (s : string)
| Number (n : Z)
| Elem (tag : string) (onClick : option Handler) (children : list Element).

(** [{review.status === "PENDING" && (<div>...</div>)}]: [false] renders
    nothing. *)
Definition actions (review : ReviewItem) : list Element :=
  if decide (Review.status review = "PENDING") then
    [Elem "div" None
       [Elem "button" (Some (OnApprove (Review.id review))) [Text "Approve & Post"];
        Elem "button" (Some (OnReject (Review.id review))) [Text "Reject"]]]
  else [].

Definition card (review : ReviewItem) : Element :=
  Elem "div" None
    ([Elem "h3" None
        [Text "PR #"; Number (Review.pr_number review); Text ": ";
         Text (Review.branch review)];
      Elem "p" None
        [Elem "strong" None [Text "Status:"]; Text " ";
         Text (Review.status review)];
      Elem "div" None [Text (Review.ai_feedback review)]]
     ++ actions review).

Definition cards (rs : list ReviewItem) : list Element := map card rs.

Definition App (rs : list ReviewItem) : Element :=
  Elem "div" None
    [Elem "h1" None [Text "🚀 DevOps AI Code Reviewer"];
     Elem "div" None (cards rs)].

(** The click handlers of a tree, in document order. *)
Fixpoint handlers (e : Element) : list Handler :=
  match e with
  | Text _ | Number _ => []
  | Elem _ onClick children =>
      match onClick with Some h => [h] | None => [] end
      ++ flat_map handlers children
  end.

(** The [button] elements of a tree, in document order. *)
Fixpoint buttons (e : Element) : list Element :=
  match e with
  | Text _ | Number _ => []
  | Elem tag onClick children =>
      (if decide (tag = "button") then [e] else [])
      ++ flat_map buttons children
  end.

(** ** Reading a run *)

(** The rest of an async function after its first [await]. *)
Definition resumption (a : Async) : Settled → Async :=
  match a with
  | Await _ k => k
  | _ => fun _ => Done
  end.

(** The async function behind a click handler, and the URL it posts to. *)
Definition mutation (h : Handler) : Async :=
  match h with
  | OnApprove id => handleApprove id
  | OnReject id => handleReject id
  end.

Definition endpoint (h : Handler) : Endpoint :=
  match h with
  | OnApprove id => ReviewApprove id
  | OnReject id => ReviewReject id
  end.

(** [settles n ev]: the event is the answer to request [n]. *)
Definition settles (n : nat) (ev : Event) : bool :=
  match ev with
  | Settle m _ => bool_decide (m = n)
  | _ => false
  end.

(** No event of the list answers request [n]. *)
Definition quiet (n : nat) (evs : list Event) : bool :=
  forallb (fun ev => negb (settles n ev)) evs.

(** ** Invariants of a run *)

(** A suspended call is one of the component's own: a [fetchReviews]
    waiting for its list request, or a click handler waiting for its
    POST. *)
Definition known (w : World) (n : nat) (s : Suspended) : Prop :=
  (resume s = resumption fetchReviews ∧ Sent n (AxiosGet Reviews) ∈ network w)
  ∨ (∃ h, resume s = resumption (mutation h)).

(** The queue is the empty list of [useState([])] or the body of an
    answered list request. *)
Definition from_backend (w : World) : Prop :=
  reviews w = [] ∨
  ∃ n res, Sent n (AxiosGet Reviews) ∈ network w
           ∧ Answered n (Fulfilled res) ∈ network w
           ∧ reviews w = data res.

(** The request numbers of a log entry. *)
Definition request_of (e : NetEvent) : nat :=
  match e with
  | Sent n _ => n
  | Answered n _ => n
  end.

(** What holds in every world reached from [initial]: request and promise
    numbers are below the counters, every suspended call is one of the
    component's own, the log mentions only requests that were sent, a
    request in flight has no answer in the log, and the queue comes from
    the backend. *)
Record coherent (w : World) : Prop := MkCoherent {
  coherent_request : ∀ n s, pending w !! n = Some s → n < next_request w;
  coherent_promise : ∀ n s, pending w !! n = Some s → promise s < next_promise w;
  coherent_known : ∀ n s, pending w !! n = Some s → known w n s;
  coherent_logged : ∀ e, e ∈ network w → request_of e < next_request w;
  coherent_unanswered :
    ∀ n s o, pending w !! n = Some s → Answered n o ∉ network w;
  coherent_queue : from_backend w
}.

(** Promise [p] has been handed out, and only the suspended calls in [P]
    can still settle it. *)
Definition owned_by (P : nat → Prop) (p : nat) (w : World) : Prop :=
  p < next_promise w ∧
  ∀ m t, pending w !! m = Some t → promise t = p → P m.

(** Some list request of the log has been answered with a response. *)
Definition is_list_request (n : nat) (e : NetEvent) : bool :=
  match e with
  | Sent m (AxiosGet Reviews) => bool_decide (m = n)
  | _ => false
  end.

Definition list_answered (log : list NetEvent) : bool :=
  existsb (fun e =>
             match e with
             | Answered n (Fulfilled _) => existsb (is_list_request n) log
             | _ => false
             end) log.

(** ** Observations *)

(** The error with which the call that returned promise [p] failed, if it
    failed. *)
Definition surfaced (w : World) (p : nat) : option JsError :=
  match promises w !! p with
  | Some (PRejected error) => Some error
  | _ => None
  end.

(** What the component shows in world [w]. *)
Definition render (w : World) : Element := App (reviews w).

(** The children of an element. *)
Definition children (e : Element) : list Element :=
  match e with
  | Elem _ _ cs => cs
  | _ => []
  end.

(** The cards a page shows: the children of the grid, which is the second
    of the two children of the root. *)
Definition rendered_cards (page : Element) : list Element :=
  match children page with
  | [_; grid] => children grid
  | _ => []
  end.

(** The error axios rejects with when the response has a status outside
    2xx. *)
Definition AxiosError (message : string) (status : Z) : JsError :=
  MkError "AxiosError" message (Some status).

(** The error axios rejects with when no response arrived. *)
Definition network_error : JsError :=
  MkError "AxiosError" "Network Error" None.

(** The item of the specification's scenarios, before and after the
    approval. *)
Definition item_pending : ReviewItem :=
  Review.Make 1 42 "feature-x" "PENDING" "Looks fine".

Definition item_approved : ReviewItem :=
  Review.Make 1 42 "feature-x" "APPROVED" "Looks fine".

(** ** What the page offers *)

#[global] Instance Handler_eq_dec : EqDecision Handler.
Proof. solve_decision. Defined.

(** The id a click handler was closed over. *)
Definition target (h : Handler) : Z :=
  match h with
  | OnApprove id => id
  | OnReject id => id
  end.

(** The two closures of the card of an item. *)
Definition controls (r : ReviewItem) : list Handler :=
  [OnApprove (Review.id r); OnReject (Review.id r)].

(** The page lets the event happen in world [w]: a handler is called only
    through a button that is rendered. *)
Definition offered (w : World) (ev : Event) : bool :=
  match ev with
  | CallHandleApprove id => bool_decide (OnApprove id ∈ handlers (render w))
  | CallHandleReject id => bool_decide (OnReject id ∈ handlers (render w))
  | _ => true
  end.

(** A run in which every event is offered when it happens. *)
Fixpoint browse (w : World) (evs : list Event) : option World :=
  match evs with
  | [] => Some w
  | ev :: evs => if offered w ev then browse (step w ev) evs else None
  end.

(** Some answered list request returned an item with the id of the
    handler and status [PENDING]. *)
Definition backed (w : World) (h : Handler) : Prop :=
  ∃ m res r, Sent m (AxiosGet Reviews) ∈ network w
             ∧ Answered m (Fulfilled res) ∈ network w
             ∧ r ∈ data res
             ∧ Review.status r = "PENDING"
             ∧ Review.id r = target h.

(** ** The log, the console and the promises of a run *)

(** As [known], and the log holds the request the call waits for. *)
Definition awaits (w : World) (n : nat) (s : Suspended) : Prop :=
  (resume s = resumption fetchReviews ∧ Sent n (AxiosGet Reviews) ∈ network w)
  ∨ (∃ h, resume s = resumption (mutation h)
          ∧ Sent n (AxiosPost (endpoint h)) ∈ network w).

(** What the log, the console and the rejected promises of a reachable
    world are made of. *)
Record traced (w : World) : Prop := MkTraced {
  traced_awaits : ∀ n s, pending w !! n = Some s → awaits w n s;
  traced_unique :
    ∀ n r r', Sent n r ∈ network w → Sent n r' ∈ network w → r = r';
  traced_shape :
    ∀ n r, Sent n r ∈ network w →
           r = AxiosGet Reviews ∨ ∃ h, r = AxiosPost (endpoint h);
  traced_console :
    ∀ msg error, (msg, error) ∈ console w →
      msg = "Error fetching reviews"
      ∧ ∃ n, Sent n (AxiosGet Reviews) ∈ network w
             ∧ Answered n (Rejected error) ∈ network w;
  traced_rejected :
    ∀ p error, promises w !! p = Some (PRejected error) →
      ∃ n h, Sent n (AxiosPost (endpoint h)) ∈ network w
             ∧ Answered n (Rejected error) ∈ network w
}.

(** Counting in the log and in the events. *)
Definition is_get (e : NetEvent) : bool :=
  match e with
  | Sent _ (AxiosGet _) => true
  | _ => false
  end.

Definition is_post_of (n : nat) (e : NetEvent) : bool :=
  match e with
  | Sent m (AxiosPost _) => bool_decide (m = n)
  | _ => false
  end.

(** The entry is the fulfilled answer to a POST of the log. *)
Definition is_post_fulfilled (log : list NetEvent) (e : NetEvent) : bool :=
  match e with
  | Answered n (Fulfilled _) => existsb (is_post_of n) log
  | _ => false
  end.

Definition is_fetch_call (ev : Event) : bool :=
  match ev with
  | CallFetchReviews => true
  | _ => false
  end.

Definition count {A : Type} (f : A → bool) (l : list A) : nat :=
  length (List.filter f l).

(** Unfold the world updates and read the fields. *)
Ltac world_simpl :=
  cbn [reviews console network next_request pending promises next_promise
       settle suspend setReviews console_error new_promise answered
       promise resume] in *.

(** * Properties *)

(** ** Frame lemmas: what running a call leaves alone *)

Lemma exec_next_request a p w :
  next_request w ≤ next_request (exec a p w).
Proof.
  revert p w.
  induction a as [| | | v k IH | m e k IH | f IHf k IHk]; intros p w; simpl;
    try lia.
  - apply (IH p (setReviews v w)).
  - apply (IH p (console_error m e w)).
  - etrans; [|apply IHk]. apply (IHf _ (new_promise w)).
Qed.

Lemma exec_next_promise a p w :
  next_promise w ≤ next_promise (exec a p w).
Proof.
  revert p w.
  induction a as [| | | v k IH | m e k IH | f IHf k IHk]; intros p w; simpl;
    try lia.
  - apply (IH p (setReviews v w)).
  - apply (IH p (console_error m e w)).
  - etrans; [|apply IHk].
    etrans; [|apply IHf]. simpl. lia.
Qed.

(** A call that runs does not touch the calls suspended before it. *)
Lemma exec_pending_other a p w n s :
  pending w !! n = Some s → n < next_request w →
  pending (exec a p w) !! n = Some s.
Proof.
  revert p w.
  induction a as [| | r k _ | v k IH | m e k IH | f IHf k IHk];
    intros p w Hn Hlt; simpl; try done.
  - rewrite lookup_insert_ne; [done | lia].
  - by apply IH.
  - by apply IH.
  - apply IHk.
    + by apply IHf.
    + eapply Nat.lt_le_trans; [|apply exec_next_request]. done.
Qed.

(** The network log only grows. *)
Lemma exec_network a p w :
  network w `prefix_of` network (exec a p w).
Proof.
  revert p w.
  induction a as [| | r k _ | v k IH | m e k IH | f IHf k IHk];
    intros p w; simpl; try done.
  - by apply prefix_app_r.
  - apply (IH p (setReviews v w)).
  - apply (IH p (console_error m e w)).
  - etrans; [|apply IHk]. apply (IHf _ (new_promise w)).
Qed.

Lemma step_next_request w ev :
  next_request w ≤ next_request (step w ev).
Proof.
  destruct ev as [| id | id | n o]; simpl; try lia.
  destruct (pending w !! n) as [s|]; [|done].
  apply (exec_next_request _ _ (answered n o w)).
Qed.

Lemma step_pending_other w ev n s :
  pending w !! n = Some s → n < next_request w → settles n ev = false →
  pending (step w ev) !! n = Some s.
Proof.
  intros Hn Hlt Hev.
  destruct ev as [| id | id | m o]; simpl.
  - rewrite lookup_insert_ne; [done | lia].
  - rewrite lookup_insert_ne; [done | lia].
  - rewrite lookup_insert_ne; [done | lia].
  - simpl in Hev. apply bool_decide_eq_false in Hev.
    destruct (pending w !! m) as [t|] eqn:Hm; [|done].
    apply exec_pending_other; simpl; [|done].
    by rewrite lookup_delete_ne.
Qed.

Lemma run_snoc w evs ev :
  run w (evs ++ [ev]) = step (run w evs) ev.
Proof. unfold run. by rewrite foldl_app. Qed.

Lemma run_app w evs evs' :
  run w (evs ++ evs') = run (run w evs) evs'.
Proof. unfold run. by rewrite foldl_app. Qed.

Lemma run_next_request w evs :
  next_request w ≤ next_request (run w evs).
Proof.
  revert w. induction evs as [|ev evs IH]; intros w; simpl; [done|].
  etrans; [apply (step_next_request w ev) | apply IH].
Qed.

(** A suspended call stays as it is until its own request is answered. *)
Lemma run_pending_other w evs n s :
  pending w !! n = Some s → n < next_request w → quiet n evs = true →
  pending (run w evs) !! n = Some s.
Proof.
  revert w. induction evs as [|ev evs IH]; intros w Hn Hlt Hq; simpl; [done|].
  simpl in Hq. apply andb_true_iff in Hq as [Hev Hq].
  apply negb_true_iff in Hev.
  apply IH; [| |done].
  - by apply step_pending_other.
  - eapply Nat.lt_le_trans; [|apply step_next_request]. done.
Qed.

Lemma run_network w evs :
  network w `prefix_of` network (run w evs).
Proof.
  revert w. induction evs as [|ev evs IH]; intros w; simpl; [done|].
  etrans; [|apply IH].
  destruct ev as [| id | id | n o]; simpl; try by apply prefix_app_r.
  destruct (pending w !! n) as [s|]; [|done].
  etrans; [|apply exec_network]. simpl. by apply prefix_app_r.
Qed.

(** A call made from outside suspends at its first request. *)
Lemma step_call_fetch w :
  step w CallFetchReviews =
  suspend (next_promise w) (AxiosGet Reviews) (resumption fetchReviews)
          (new_promise w).
Proof. reflexivity. Qed.

Lemma step_click w h :
  step w (click h) =
  suspend (next_promise w) (AxiosPost (endpoint h)) (resumption (mutation h))
          (new_promise w).
Proof. by destruct h. Qed.

Lemma step_settle w n o s :
  pending w !! n = Some s →
  step w (Settle n o) = exec (resume s o) (promise s) (answered n o w).
Proof. intros Hn. simpl. by rewrite Hn. Qed.

(** What each of the four continuations does when it is resumed. *)
Lemma exec_fetch_fulfilled res p w :
  exec (resumption fetchReviews (Fulfilled res)) p w =
  settle p PFulfilled (setReviews (data res) w).
Proof. reflexivity. Qed.

Lemma exec_fetch_rejected error p w :
  exec (resumption fetchReviews (Rejected error)) p w =
  settle p PFulfilled (console_error "Error fetching reviews" error w).
Proof. reflexivity. Qed.

Lemma exec_mutation_fulfilled h res p w :
  exec (resumption (mutation h) (Fulfilled res)) p w =
  settle p PFulfilled
    (suspend (next_promise w) (AxiosGet Reviews) (resumption fetchReviews)
             (new_promise w)).
Proof. by destruct h. Qed.

Lemma exec_mutation_rejected h error p w :
  exec (resumption (mutation h) (Rejected error)) p w =
  settle p (PRejected error) w.
Proof. by destruct h. Qed.

(** The call suspended by [CallFetchReviews] or by a click is still there
    after any events that do not answer its request. *)
Lemma fetch_in_flight w mid :
  quiet (next_request w) mid = true →
  pending (run (step w CallFetchReviews) mid) !! next_request w =
  Some (MkSuspended (next_promise w) (resumption fetchReviews)).
Proof.
  intros Hq. apply run_pending_other; [| |done].
  - rewrite step_call_fetch. simpl. apply lookup_insert_eq.
  - rewrite step_call_fetch. simpl. lia.
Qed.

Lemma mutation_in_flight w h mid :
  quiet (next_request w) mid = true →
  pending (run (step w (click h)) mid) !! next_request w =
  Some (MkSuspended (next_promise w) (resumption (mutation h))).
Proof.
  intros Hq. apply run_pending_other; [| |done].
  - rewrite step_click. simpl. apply lookup_insert_eq.
  - rewrite step_click. simpl. lia.
Qed.

(** ** The worlds the component can be in *)

Lemma known_mono w w' n s :
  network w `prefix_of` network w' → known w n s → known w' n s.
Proof.
  intros [l Hl] [[Hk Hin]|Hm]; [left | by right].
  split; [done|]. rewrite Hl. apply elem_of_app. by left.
Qed.

Lemma from_backend_mono w w' :
  network w `prefix_of` network w' → reviews w' = reviews w →
  from_backend w → from_backend w'.
Proof.
  intros [l Hl] Hr [Hnil|(n & res & Hs & Ha & Hd)].
  - left. congruence.
  - right. exists n, res. rewrite Hl, !elem_of_app. split_and!; auto. congruence.
Qed.

Lemma coherent_initial : coherent initial.
Proof.
  split; simpl; try (intros n s; by rewrite lookup_empty).
  - intros e He. by apply elem_of_nil in He.
  - by left.
Qed.

Lemma coherent_settle w p st : coherent w → coherent (settle p st w).
Proof. intros []. by split. Qed.

Lemma coherent_console_error w msg error :
  coherent w → coherent (console_error msg error w).
Proof. intros []. by split. Qed.

(** Sending a request for one of the component's own continuations keeps
    the world coherent. *)
Lemma coherent_suspend w req k :
  coherent w →
  (k = resumption fetchReviews ∧ req = AxiosGet Reviews
   ∨ ∃ h, k = resumption (mutation h)) →
  coherent (suspend (next_promise w) req k (new_promise w)).
Proof.
  intros [Hr Hp Hk Hl Hu Hq] Hnew. split; world_simpl.
  - intros n s Hn. apply lookup_insert_Some in Hn as [[<- _]|[_ Hn]]; [lia|].
    apply Hr in Hn. lia.
  - intros n s Hn. apply lookup_insert_Some in Hn as [[_ <-]|[_ Hn]]; [simpl; lia|].
    apply Hp in Hn. lia.
  - intros n s Hn. apply lookup_insert_Some in Hn as [[<- <-]|[_ Hn]].
    + destruct Hnew as [[-> ->]|Hm]; [left | by right].
      split; [done|]. world_simpl. apply elem_of_app. right.
      by apply list_elem_of_singleton.
    + eapply known_mono; [|by apply Hk]. world_simpl. by apply prefix_app_r.
  - intros e He. apply elem_of_app in He as [He|He].
    + apply Hl in He. lia.
    + apply list_elem_of_singleton in He as ->. simpl. lia.
  - intros n s o Hn Ha. apply elem_of_app in Ha as [Ha|Ha].
    + apply lookup_insert_Some in Hn as [[<- _]|[_ Hn]].
      * apply Hl in Ha. simpl in Ha. lia.
      * by apply (Hu n s o).
    + by apply list_elem_of_singleton in Ha.
  - eapply from_backend_mono; [| |done]; world_simpl; [by apply prefix_app_r | done].
Qed.

(** Recording the answer to a request in flight keeps the world
    coherent. *)
Lemma coherent_answered w n o s :
  coherent w → pending w !! n = Some s → coherent (answered n o w).
Proof.
  intros [Hr Hp Hk Hl Hu Hq] Hn.
  assert (Hdel : ∀ m t, delete n (pending w) !! m = Some t →
                        m ≠ n ∧ pending w !! m = Some t).
  { intros m t Hm. apply lookup_delete_Some in Hm as [? Hm]. by split. }
  split; world_simpl.
  - intros m t Hm. eapply Hr, Hdel, Hm.
  - intros m t Hm. eapply Hp, Hdel, Hm.
  - intros m t Hm. eapply known_mono; [|eapply Hk, Hdel, Hm].
    world_simpl. by apply prefix_app_r.
  - intros e He. apply elem_of_app in He as [He|He]; [by apply Hl|].
    apply list_elem_of_singleton in He as ->. simpl. by eapply Hr.
  - intros m t o' Hm Ha. apply Hdel in Hm as [Hne Hm].
    apply elem_of_app in Ha as [Ha|Ha]; [by apply (Hu m t o')|].
    apply list_elem_of_singleton in Ha. congruence.
  - eapply from_backend_mono; [| |done]; world_simpl; [by apply prefix_app_r | done].
Qed.

(** Storing the body of an answered list request keeps the world
    coherent. *)
Lemma coherent_setReviews w n res :
  coherent w →
  Sent n (AxiosGet Reviews) ∈ network w →
  Answered n (Fulfilled res) ∈ network w →
  coherent (setReviews (data res) w).
Proof.
  intros [] Hs Ha. split; try done.
  right. by exists n, res.
Qed.

Lemma coherent_step w ev : coherent w → coherent (step w ev).
Proof.
  intros Hw.
  destruct ev as [| id | id | n o].
  - rewrite step_call_fetch. apply coherent_suspend; auto.
  - change (CallHandleApprove id) with (click (OnApprove id)).
    rewrite step_click. apply coherent_suspend; eauto.
  - change (CallHandleReject id) with (click (OnReject id)).
    rewrite step_click. apply coherent_suspend; eauto.
  - destruct (pending w !! n) as [s|] eqn:Hn; [|by simpl; rewrite Hn].
    rewrite (step_settle _ _ _ _ Hn).
    pose proof (coherent_answered w n o s Hw Hn) as Hw'.
    destruct (coherent_known _ Hw _ _ Hn) as [[Hres Hsent]|[h Hres]];
      rewrite Hres; destruct o as [res|error].
    + rewrite exec_fetch_fulfilled.
      apply coherent_settle, (coherent_setReviews _ n); [done| |].
      * world_simpl. apply elem_of_app. by left.
      * world_simpl. apply elem_of_app. right. by apply list_elem_of_singleton.
    + rewrite exec_fetch_rejected.
      by apply coherent_settle, coherent_console_error.
    + rewrite exec_mutation_fulfilled.
      apply coherent_settle, coherent_suspend; [done | by left].
    + rewrite exec_mutation_rejected.
      by apply coherent_settle.
Qed.

Lemma coherent_run w evs : coherent w → coherent (run w evs).
Proof.
  revert w. induction evs as [|ev evs IH]; intros w Hw; simpl; [done|].
  by apply IH, coherent_step.
Qed.

Lemma coherent_reachable evs : coherent (run initial evs).
Proof. apply coherent_run, coherent_initial. Qed.

(** ** Who can settle a promise *)

Lemma exec_owned P a q w p :
  q ≠ p → owned_by P p w →
  owned_by P p (exec a q w) ∧ promises (exec a q w) !! p = promises w !! p.
Proof.
  revert q w.
  induction a as [| | r k _ | v k IH | m e k IH | f IHf k IHk];
    intros q w Hq [Hlt Hown]; simpl.
  - split; [by split|]. by apply lookup_insert_ne.
  - split; [by split|]. by apply lookup_insert_ne.
  - split; [|done]. split; [done|]. world_simpl.
    intros m t Hm Ht. apply lookup_insert_Some in Hm as [[_ <-]|[_ Hm]]; [done|].
    by eapply Hown.
  - by apply (IH q (setReviews v w)).
  - by apply (IH q (console_error m e w)).
  - destruct (IHf (next_promise w) (new_promise w)) as [Hf Hpf].
    { lia. }
    { split; [simpl; lia | done]. }
    destruct (IHk q _ Hq Hf) as [Hk Hpk].
    split; [done|]. by rewrite Hpk, Hpf.
Qed.

Lemma step_owned P w ev p :
  owned_by P p w → (∀ m, P m → settles m ev = false) →
  owned_by P p (step w ev) ∧ promises (step w ev) !! p = promises w !! p.
Proof.
  intros Hown Hev.
  assert (Hcall : ∀ f, owned_by P p (invoke f w)
                       ∧ promises (invoke f w) !! p = promises w !! p).
  { intros f. destruct Hown as [Hlt Hown]. unfold invoke.
    destruct (exec_owned P f (next_promise w) (new_promise w) p) as [H1 H2];
      [lia | split; [simpl; lia | done] | done]. }
  destruct ev as [| id | id | n o]; try apply Hcall.
  simpl. destruct (pending w !! n) as [s|] eqn:Hn; [|done].
  destruct Hown as [Hlt Hown].
  destruct (exec_owned P (resume s o) (promise s) (answered n o w) p)
    as [H1 H2]; [| |done].
  - intros Hp. specialize (Hev n (Hown _ _ Hn Hp)). simpl in Hev.
    by rewrite bool_decide_eq_false in Hev.
  - split; [done|]. world_simpl. intros m t Hm.
    apply lookup_delete_Some in Hm as [_ Hm]. by eapply Hown.
Qed.

Lemma run_owned P w evs p :
  owned_by P p w → (∀ m, P m → quiet m evs = true) →
  owned_by P p (run w evs) ∧ promises (run w evs) !! p = promises w !! p.
Proof.
  revert w. induction evs as [|ev evs IH]; intros w Hown Hq; simpl; [done|].
  destruct (step_owned P w ev p Hown) as [H1 H2].
  { intros m Hm. specialize (Hq m Hm). simpl in Hq.
    apply andb_true_iff in Hq as [Hq _]. by apply negb_true_iff. }
  destruct (IH (step w ev) H1) as [H3 H4].
  { intros m Hm. specialize (Hq m Hm). simpl in Hq.
    by apply andb_true_iff in Hq as [_ Hq]. }
  split; [done|]. by rewrite H4.
Qed.

(** ** What an answer does to the call that waited for it *)

Section Answers.

Variable w : World.
Variable mid : list Event.
Hypothesis Hquiet : quiet (next_request w) mid = true.

Lemma fetch_answer_fulfilled res :
  let w1 := run (step w CallFetchReviews) mid in
  step w1 (Settle (next_request w) (Fulfilled res)) =
  settle (next_promise w) PFulfilled
    (setReviews (data res) (answered (next_request w) (Fulfilled res) w1)).
Proof.
  intros w1. rewrite (step_settle _ _ _ _ (fetch_in_flight w mid Hquiet)).
  apply exec_fetch_fulfilled.
Qed.

Lemma fetch_answer_rejected error :
  let w1 := run (step w CallFetchReviews) mid in
  step w1 (Settle (next_request w) (Rejected error)) =
  settle (next_promise w) PFulfilled
    (console_error "Error fetching reviews" error
       (answered (next_request w) (Rejected error) w1)).
Proof.
  intros w1. rewrite (step_settle _ _ _ _ (fetch_in_flight w mid Hquiet)).
  apply exec_fetch_rejected.
Qed.

Lemma mutation_answer_fulfilled h res :
  let w1 := run (step w (click h)) mid in
  let w1' := answered (next_request w) (Fulfilled res) w1 in
  step w1 (Settle (next_request w) (Fulfilled res)) =
  settle (next_promise w) PFulfilled
    (suspend (next_promise w1') (AxiosGet Reviews) (resumption fetchReviews)
             (new_promise w1')).
Proof.
  intros w1 w1'. rewrite (step_settle _ _ _ _ (mutation_in_flight w h mid Hquiet)).
  apply exec_mutation_fulfilled.
Qed.

Lemma mutation_answer_rejected h error :
  let w1 := run (step w (click h)) mid in
  step w1 (Settle (next_request w) (Rejected error)) =
  settle (next_promise w) (PRejected error)
    (answered (next_request w) (Rejected error) w1).
Proof.
  intros w1. rewrite (step_settle _ _ _ _ (mutation_in_flight w h mid Hquiet)).
  apply exec_mutation_rejected.
Qed.

End Answers.

(** A fulfilled list request stores its body as the queue. *)
Lemma fetch_success_queue (w : World) (mid : list Event) (res : Response) :
  quiet (next_request w) mid = true →
  reviews (step (run (step w CallFetchReviews) mid)
                (Settle (next_request w) (Fulfilled res))) = data res.
Proof. intros Hq. by rewrite (fetch_answer_fulfilled w mid Hq res). Qed.

(** ** The fetch path *)

(** C1. When the list request of a [fetchReviews] call is fulfilled, the
    queue is exactly the sequence of the response body: same items, same
    order, nothing added and nothing dropped. This holds from any world
    and whatever else happens while the request is in flight. *)
Theorem fetch_success_replaces_queue (w : World) (mid : list Event) (res : Response) :
  quiet (next_request w) mid = true →
  let w1 := run (step w CallFetchReviews) mid in
  let w2 := step w1 (Settle (next_request w) (Fulfilled res)) in
  reviews w2 = data res
  ∧ promises w2 !! next_promise w = Some PFulfilled.
Proof.
  intros Hq w1 w2. unfold w2, w1.
  rewrite (fetch_answer_fulfilled w mid Hq res). world_simpl.
  split; [done | apply lookup_insert_eq].
Qed.

(** C5. When the list request of a [fetchReviews] call is rejected, the
    call does not throw: its promise is fulfilled, the error is written
    to the console, and the queue is the one from before the answer. In
    particular a fulfilled fetch followed by a rejected one leaves the
    queue at the body of the first. *)
Theorem fetch_failure_keeps_queue (w : World) (mid : list Event) (error : JsError) :
  quiet (next_request w) mid = true →
  let w1 := run (step w CallFetchReviews) mid in
  let w2 := step w1 (Settle (next_request w) (Rejected error)) in
  reviews w2 = reviews w1
  ∧ console w2 = console w1 ++ [("Error fetching reviews", error)]
  ∧ promises w2 !! next_promise w = Some PFulfilled
  ∧ next_request w2 = next_request w1
  ∧ ∀ res : Response,
      reviews (run w [CallFetchReviews;
                      Settle (next_request w) (Fulfilled res);
                      CallFetchReviews;
                      Settle (S (next_request w)) (Rejected error)])
      = data res.
Proof.
  intros Hq w1 w2. unfold w2, w1.
  rewrite (fetch_answer_rejected w mid Hq error). world_simpl.
  split_and!; try done; [apply lookup_insert_eq|].
  intros res.
  change (run w [CallFetchReviews; Settle (next_request w) (Fulfilled res);
                 CallFetchReviews; Settle (S (next_request w)) (Rejected error)])
    with (let w' := step (run (step w CallFetchReviews) [])
                         (Settle (next_request w) (Fulfilled res)) in
          step (run (step w' CallFetchReviews) [])
               (Settle (S (next_request w)) (Rejected error))).
  cbv zeta.
  rewrite (fetch_answer_fulfilled w [] eq_refl res).
  set (w' := settle _ _ _).
  change (S (next_request w)) with (next_request w').
  by rewrite (fetch_answer_rejected w' [] eq_refl error).
Qed.

(** C9. Two refreshes in a row that receive the same snapshot leave the
    same queue after each of them. *)
Theorem refresh_idempotent (w : World) (res : Response) :
  let w1 := run w [CallFetchReviews; Settle (next_request w) (Fulfilled res)] in
  let w2 := run w1 [CallFetchReviews; Settle (next_request w1) (Fulfilled res)] in
  reviews w1 = data res ∧ reviews w2 = reviews w1.
Proof.
  intros w1 w2.
  assert (Hrun : ∀ v, run v [CallFetchReviews; Settle (next_request v) (Fulfilled res)]
                      = settle (next_promise v) PFulfilled
                          (setReviews (data res)
                             (answered (next_request v) (Fulfilled res)
                                (step v CallFetchReviews)))).
  { intros v. apply (fetch_answer_fulfilled v [] eq_refl res). }
  unfold w2, w1. by rewrite !Hrun.
Qed.

(** ** The queue is only ever replaced *)

Lemma list_answered_intro log n res :
  Sent n (AxiosGet Reviews) ∈ log → Answered n (Fulfilled res) ∈ log →
  list_answered log = true.
Proof.
  intros Hs Ha. apply existsb_exists.
  exists (Answered n (Fulfilled res)). split; [by apply list_elem_of_In|].
  apply existsb_exists. exists (Sent n (AxiosGet Reviews)).
  split; [by apply list_elem_of_In|]. simpl. by apply bool_decide_eq_true.
Qed.

(** C7. In every world the component reaches, one event either leaves the
    queue as it is or replaces it as a whole by the body of the list
    response that the event delivers; so the queue is always the initial
    empty list or a snapshot the backend returned. *)
Theorem queue_replaced_wholesale (pre : list Event) (ev : Event) :
  let w := run initial pre in
  (reviews (step w ev) = reviews w
   ∨ ∃ n res, ev = Settle n (Fulfilled res)
              ∧ Sent n (AxiosGet Reviews) ∈ network w
              ∧ reviews (step w ev) = data res)
  ∧ from_backend (step w ev).
Proof.
  intros w. split; [|apply coherent_step, coherent_reachable].
  pose proof (coherent_reachable pre) as Hw. fold w in Hw.
  destruct ev as [| id | id | n o]; try by left.
  destruct (pending w !! n) as [s|] eqn:Hn; [|left; by simpl; rewrite Hn].
  rewrite (step_settle _ _ _ _ Hn).
  destruct (coherent_known _ Hw _ _ Hn) as [[Hres Hsent]|[h Hres]];
    rewrite Hres; destruct o as [res|error].
  - right. exists n, res. by rewrite exec_fetch_fulfilled.
  - left. by rewrite exec_fetch_rejected.
  - left. by rewrite exec_mutation_fulfilled.
  - left. by rewrite exec_mutation_rejected.
Qed.

(** C8. The queue starts empty: it is empty in the initial world, after
    the mount effect has called [fetchReviews], and for as long as no
    list request has been answered with a response. *)
Theorem initial_queue_empty (evs : list Event) :
  list_answered (network (run initial evs)) = false →
  reviews initial = []
  ∧ reviews mount = []
  ∧ reviews (run initial evs) = [].
Proof.
  intros Hno. split_and!; try done.
  destruct (coherent_queue _ (coherent_reachable evs))
    as [Hnil|(n & res & Hs & Ha & _)]; [done|].
  by rewrite (list_answered_intro _ n res Hs Ha) in Hno.
Qed.

(** ** The mutation path *)

(** C3. When the POST of [handleApprove] or [handleReject] is rejected,
    the promise the handler returned is rejected with that error, the
    only entry added to the network log is the answer itself (no list
    request is sent), no call is left suspended in its place, and the
    queue and the console are as they were. Neither of the handler's two
    steps changes the queue, so with nothing else in flight the queue is
    the one from before the call. *)
Theorem mutation_failure_propagates
    (w : World) (h : Handler) (mid : list Event) (error : JsError) :
  quiet (next_request w) mid = true →
  let w0 := step w (click h) in
  let w1 := run w0 mid in
  let w2 := step w1 (Settle (next_request w) (Rejected error)) in
  promises w2 !! next_promise w = Some (PRejected error)
  ∧ network w2 = network w1 ++ [Answered (next_request w) (Rejected error)]
  ∧ next_request w2 = next_request w1
  ∧ pending w2 = delete (next_request w) (pending w1)
  ∧ reviews w0 = reviews w
  ∧ reviews w2 = reviews w1
  ∧ console w2 = console w1
  ∧ reviews (run w [click h; Settle (next_request w) (Rejected error)])
    = reviews w.
Proof.
  intros Hq w0 w1 w2. unfold w2, w1, w0.
  rewrite (mutation_answer_rejected w mid Hq h error).
  rewrite step_click. world_simpl.
  split_and!; try done; [apply lookup_insert_eq|].
  change (run w [click h; Settle (next_request w) (Rejected error)])
    with (step (run (step w (click h)) [])
               (Settle (next_request w) (Rejected error))).
  rewrite (mutation_answer_rejected w [] eq_refl h error).
  by rewrite step_click.
Qed.

(** C4. In every world the component reaches, a call of [handleApprove]
    or [handleReject] sends its POST at once and nothing else, and stays
    suspended at its [await] until that POST is answered; the list
    request of the refresh is sent in the step that receives the answer,
    right after that answer in the network log. Before that step the log
    holds no answer to the POST and no request with the number of the
    refresh. *)
Theorem mutation_before_refresh
    (pre : list Event) (h : Handler) (mid : list Event) (res : Response) :
  let w := run initial pre in
  let n := next_request w in
  let w0 := step w (click h) in
  let w1 := run w0 mid in
  let n' := next_request w1 in
  let w2 := step w1 (Settle n (Fulfilled res)) in
  quiet n mid = true →
  network w0 = network w ++ [Sent n (AxiosPost (endpoint h))]
  ∧ network w0 `prefix_of` network w1
  ∧ pending w1 !! n = Some (MkSuspended (next_promise w) (resumption (mutation h)))
  ∧ network w2 =
      network w1 ++ [Answered n (Fulfilled res); Sent n' (AxiosGet Reviews)]
  ∧ (∀ o, Answered n o ∉ network w1)
  ∧ (∀ r, Sent n' r ∉ network w1)
  ∧ n < n'.
Proof.
  intros w n w0 w1 n' w2 Hq.
  assert (Hw1 : coherent w1) by apply coherent_run, coherent_step, coherent_reachable.
  pose proof (mutation_in_flight w h mid Hq) as Hn. fold n w0 w1 in Hn.
  split_and!.
  - unfold w0. by rewrite step_click.
  - apply run_network.
  - done.
  - unfold w2, w1, w0, n.
    rewrite (mutation_answer_fulfilled w mid Hq h res). world_simpl.
    by rewrite <- app_assoc.
  - intros o. by apply (coherent_unanswered _ Hw1 n _ o Hn).
  - intros r Hin. apply (coherent_logged _ Hw1) in Hin. simpl in Hin.
    unfold n' in Hin. lia.
  - apply (coherent_request _ Hw1) in Hn. done.
Qed.

(** C10. In every world the component reaches, when the POST of a
    handler is fulfilled the handler's promise is fulfilled in that same
    step, while the list request of the refresh is still in flight. If
    that request is later rejected, the handler's promise stays
    fulfilled, the error goes to the console only, and the queue is left
    as it was, until a later fetch is answered with a response. *)
Theorem mutation_success_does_not_await_refresh
    (pre : list Event) (h : Handler) (mid mid' : list Event)
    (res : Response) (error : JsError) :
  let w := run initial pre in
  let n := next_request w in
  let p := next_promise w in
  let w1 := run (step w (click h)) mid in
  let n' := next_request w1 in
  let w2 := step w1 (Settle n (Fulfilled res)) in
  let w3 := run w2 mid' in
  let w4 := step w3 (Settle n' (Rejected error)) in
  quiet n mid = true →
  quiet n' mid' = true →
  promises w2 !! p = Some PFulfilled
  ∧ pending w2 !! n' = Some (MkSuspended (next_promise w1) (resumption fetchReviews))
  ∧ reviews w2 = reviews w1
  ∧ promises w4 !! p = Some PFulfilled
  ∧ reviews w4 = reviews w3
  ∧ console w4 = console w3 ++ [("Error fetching reviews", error)]
  ∧ reviews (run w [click h; Settle n (Fulfilled res); Settle (S n) (Rejected error)])
    = reviews w
  ∧ ∀ res' : Response,
      reviews (run w4 [CallFetchReviews; Settle (next_request w4) (Fulfilled res')])
      = data res'.
Proof.
  intros w n p w1 n' w2 w3 w4 Hq Hq'.
  pose proof (coherent_reachable pre) as Hw. fold w in Hw.
  (* the handler's promise belongs to the suspended handler alone *)
  assert (Hown1 : owned_by (λ m, m = n) p w1).
  { apply run_owned; [|by intros m ->].
    rewrite step_click. split; world_simpl; [unfold p; lia|].
    intros m t Hm Ht. apply lookup_insert_Some in Hm as [[Hm _]|[_ Hm]]; [done|].
    apply (coherent_promise _ Hw) in Hm. unfold p in Ht. lia. }
  pose proof (mutation_in_flight w h mid Hq) as Hn. fold n p w1 in Hn.
  assert (Hw2 : w2 = settle p PFulfilled
                  (suspend (next_promise w1) (AxiosGet Reviews)
                     (resumption fetchReviews)
                     (new_promise (answered n (Fulfilled res) w1)))).
  { apply (mutation_answer_fulfilled w mid Hq h res). }
  assert (Hp2 : promises w2 !! p = Some PFulfilled).
  { rewrite Hw2. world_simpl. apply lookup_insert_eq. }
  assert (Hn2 : pending w2 !! n' =
                Some (MkSuspended (next_promise w1) (resumption fetchReviews))).
  { rewrite Hw2. world_simpl. apply lookup_insert_eq. }
  (* once the handler has returned, nobody can settle its promise again *)
  assert (Hown2 : owned_by (λ _, False) p w2).
  { destruct Hown1 as [Hlt Hown]. rewrite Hw2. split; world_simpl; [lia|].
    intros m t Hm Ht. apply lookup_insert_Some in Hm as [[_ <-]|[_ Hm]].
    - simpl in Ht. lia.
    - apply lookup_delete_Some in Hm as [Hne Hm].
      by apply Hne, eq_sym, (Hown m t). }
  destruct (run_owned _ w2 mid' p Hown2) as [_ Hp3]; [done|]. fold w3 in Hp3.
  assert (Hn3 : pending w3 !! n' =
                Some (MkSuspended (next_promise w1) (resumption fetchReviews))).
  { apply run_pending_other; [done| |done]. rewrite Hw2. world_simpl. unfold n'. lia. }
  assert (Hw4 : w4 = settle (next_promise w1) PFulfilled
                  (console_error "Error fetching reviews" error
                     (answered n' (Rejected error) w3))).
  { unfold w4. rewrite (step_settle _ _ _ _ Hn3). apply exec_fetch_rejected. }
  split_and!; try done.
  - by rewrite Hw2.
  - rewrite Hw4. world_simpl.
    rewrite lookup_insert_ne; [by rewrite Hp3|].
    destruct Hown1 as [Hlt _]. lia.
  - by rewrite Hw4.
  - by rewrite Hw4.
  - change (run w [click h; Settle n (Fulfilled res); Settle (S n) (Rejected error)])
      with (step (step (run (step w (click h)) []) (Settle n (Fulfilled res)))
                 (Settle (S n) (Rejected error))).
    unfold n. rewrite (mutation_answer_fulfilled w [] eq_refl h res).
    rewrite step_click. simpl. rewrite lookup_insert_eq. done.
  - intros res'.
    apply (fetch_success_queue w4 [] res' eq_refl).
Qed.

(** C6 (as the code has it). When the POST of a handler is rejected, the
    handler fails with the very error object axios rejected with: same
    name, same message, same HTTP status. The component does not look at
    the error and does not sort failures into kinds of its own. *)
Theorem mutation_error_passed_through
    (w : World) (h : Handler) (mid : list Event) (error : JsError) :
  quiet (next_request w) mid = true →
  let w1 := run (step w (click h)) mid in
  let w2 := step w1 (Settle (next_request w) (Rejected error)) in
  surfaced w2 (next_promise w) = Some error
  ∧ err_name <$> surfaced w2 (next_promise w) = Some (err_name error)
  ∧ err_status <$> surfaced w2 (next_promise w) = Some (err_status error)
  ∧ console w2 = console w1.
Proof.
  intros Hq w1 w2. unfold w2, w1.
  rewrite (mutation_answer_rejected w mid Hq h error).
  unfold surfaced. world_simpl. by rewrite lookup_insert_eq.
Qed.

(** ** Rendering *)

Lemma handlers_card (r : ReviewItem) :
  handlers (card r) =
  if decide (Review.status r = "PENDING")
  then [OnApprove (Review.id r); OnReject (Review.id r)]
  else [].
Proof. unfold card, actions. by case_decide. Qed.

Lemma buttons_card (r : ReviewItem) :
  buttons (card r) =
  if decide (Review.status r = "PENDING")
  then [Elem "button" (Some (OnApprove (Review.id r))) [Text "Approve & Post"];
        Elem "button" (Some (OnReject (Review.id r))) [Text "Reject"]]
  else [].
Proof. unfold card, actions. by case_decide. Qed.

Lemma handlers_cards (rs : list ReviewItem) :
  flat_map handlers (cards rs) =
  flat_map controls (filter (λ r, Review.status r = "PENDING") rs).
Proof.
  induction rs as [|r rs IH]; [done|].
  change (cards (r :: rs)) with (card r :: cards rs).
  cbn [flat_map]. rewrite IH, handlers_card.
  case_decide.
  - by rewrite filter_cons_True.
  - by rewrite filter_cons_False.
Qed.

Lemma handlers_App (rs : list ReviewItem) :
  handlers (App rs) =
  flat_map controls (filter (λ r, Review.status r = "PENDING") rs).
Proof.
  unfold App. cbn [handlers flat_map]. rewrite handlers_cards.
  by rewrite !app_nil_r.
Qed.

(** A pending item of the queue has its two closures among the click
    handlers of the page. *)
Lemma controls_on_page (rs : list ReviewItem) (r : ReviewItem) (h : Handler) :
  r ∈ rs → Review.status r = "PENDING" → h ∈ controls r →
  h ∈ handlers (App rs).
Proof.
  intros Hr Hp Hh. rewrite handlers_App.
  apply list_elem_of_In, in_flat_map. exists r.
  split; apply list_elem_of_In; [|done].
  by apply list_elem_of_filter.
Qed.

(** C2. Every item of the queue is rendered on the page as its card, at
    its position in the grid, and the grid holds nothing else. The card
    holds the approve and the reject button exactly when the status of
    the item is [PENDING], and then the two click handlers are on the
    page; for any other status the card holds no button at all. *)
Theorem controls_iff_pending (w : World) (i : nat) (r : ReviewItem) :
  reviews w !! i = Some r →
  render w = App (reviews w)
  ∧ rendered_cards (render w) !! i = Some (card r)
  ∧ length (rendered_cards (render w)) = length (reviews w)
  ∧ cards (reviews w) !! i = Some (card r)
  ∧ (OnApprove (Review.id r) ∈ handlers (card r) ↔ Review.status r = "PENDING")
  ∧ (OnReject (Review.id r) ∈ handlers (card r) ↔ Review.status r = "PENDING")
  ∧ (Review.status r = "PENDING" →
     handlers (card r) = [OnApprove (Review.id r); OnReject (Review.id r)]
     ∧ length (buttons (card r)) = 2
     ∧ OnApprove (Review.id r) ∈ handlers (render w)
     ∧ OnReject (Review.id r) ∈ handlers (render w))
  ∧ (Review.status r ≠ "PENDING" →
     handlers (card r) = [] ∧ buttons (card r) = []).
Proof.
  intros Hi. rewrite handlers_card, buttons_card.
  assert (Hcards : cards (reviews w) !! i = Some (card r)).
  { unfold cards. by rewrite list_lookup_fmap, Hi. }
  split_and!.
  - done.
  - exact Hcards.
  - unfold render, App, rendered_cards, children, cards. apply length_map.
  - exact Hcards.
  - case_decide; [|split; [by intros ?%elem_of_nil | done]].
    split; [done|]. intros _. apply elem_of_cons. by left.
  - case_decide; [|split; [by intros ?%elem_of_nil | done]].
    split; [done|]. intros _. apply elem_of_cons. right. apply elem_of_cons. by left.
  - intros Hp. rewrite !decide_True by done.
    pose proof (list_elem_of_lookup_2 _ _ _ Hi) as Hr.
    split_and!; try done.
    + apply (controls_on_page _ r); [done..|]. apply elem_of_cons. by left.
    + apply (controls_on_page _ r); [done..|].
      apply elem_of_cons. right. apply elem_of_cons. by left.
  - intros Hp. by rewrite !decide_False.
Qed.

(** ** The scenarios of the specification *)

(** A: after mount the queue is the single pending item and its two
    buttons are there. *)
Example scenario_A :
  let w := run initial [CallFetchReviews; Settle 0 (Fulfilled (MkResponse [item_pending]))] in
  reviews w = [item_pending]
  ∧ handlers (render w) = [OnApprove 1; OnReject 1].
Proof. by vm_compute. Qed.

(** B: the approve succeeds and the refresh returns the item approved:
    the queue shows it and the buttons are gone. *)
Example scenario_B :
  let w := run initial [CallFetchReviews; Settle 0 (Fulfilled (MkResponse [item_pending]));
                        click (OnApprove 1); Settle 1 (Fulfilled (MkResponse []));
                        Settle 2 (Fulfilled (MkResponse [item_approved]))] in
  reviews w = [item_approved]
  ∧ handlers (render w) = []
  ∧ network w = [Sent 0 (AxiosGet Reviews);
                 Answered 0 (Fulfilled (MkResponse [item_pending]));
                 Sent 1 (AxiosPost (ReviewApprove 1));
                 Answered 1 (Fulfilled (MkResponse []));
                 Sent 2 (AxiosGet Reviews);
                 Answered 2 (Fulfilled (MkResponse [item_approved]))].
Proof. by vm_compute. Qed.

(** C: the approve fails: the queue is unchanged, the handler's promise
    is rejected with the error and no list request follows. *)
Example scenario_C :
  let error := AxiosError "Request failed with status code 500" 500 in
  let w := run initial [CallFetchReviews; Settle 0 (Fulfilled (MkResponse [item_pending]));
                        click (OnApprove 1); Settle 1 (Rejected error)] in
  reviews w = [item_pending]
  ∧ surfaced w 1 = Some error
  ∧ network w = [Sent 0 (AxiosGet Reviews);
                 Answered 0 (Fulfilled (MkResponse [item_pending]));
                 Sent 1 (AxiosPost (ReviewApprove 1));
                 Answered 1 (Rejected error)].
Proof. by vm_compute. Qed.

(** C6 does not hold as the specification words it: an unknown id that the
    backend answers with 404, and a server failure answered with 500, both
    reach the caller as the [AxiosError] axios made, not as a
    [NotFoundError] and a [BackendError]. *)
Lemma mutation_error_kinds_counterexample :
  let not_found := AxiosError "Request failed with status code 404" 404 in
  let server := AxiosError "Request failed with status code 500" 500 in
  surfaced (run mount [CallHandleApprove 99; Settle 1 (Rejected not_found)]) 1
  = Some not_found
  ∧ err_name not_found ≠ "NotFoundError"
  ∧ surfaced (run mount [CallHandleApprove 99; Settle 1 (Rejected server)]) 1
    = Some server
  ∧ err_name server ≠ "BackendError"
  ∧ err_name not_found = err_name server.
Proof. by vm_compute. Qed.

(** ** The theorems at concrete runs *)

Lemma fetch_success_replaces_queue_witness :
  quiet 0 [CallHandleApprove 7] = true
  ∧ reviews (step (run (step initial CallFetchReviews) [CallHandleApprove 7])
                  (Settle 0 (Fulfilled (MkResponse [item_pending]))))
    = [item_pending].
Proof.
  split; [reflexivity|].
  exact (proj1 (fetch_success_replaces_queue initial [CallHandleApprove 7]
                  (MkResponse [item_pending]) eq_refl)).
Defined.

Lemma controls_iff_pending_witness :
  reviews (run initial [CallFetchReviews;
                        Settle 0 (Fulfilled (MkResponse [item_approved; item_pending]))])
    !! 1 = Some item_pending
  ∧ rendered_cards
      (render (run initial [CallFetchReviews;
                            Settle 0 (Fulfilled (MkResponse [item_approved; item_pending]))]))
      !! 1
    = Some (card item_pending).
Proof.
  split; [reflexivity|].
  exact (proj1 (proj2 (controls_iff_pending
                         (run initial [CallFetchReviews;
                                       Settle 0 (Fulfilled (MkResponse [item_approved; item_pending]))])
                         1 item_pending eq_refl))).
Defined.

Lemma mutation_failure_propagates_witness :
  quiet 1 [CallFetchReviews; Settle 2 (Fulfilled (MkResponse [item_approved]))] = true
  ∧ promises
      (step (run (step mount (click (OnApprove 1)))
                 [CallFetchReviews; Settle 2 (Fulfilled (MkResponse [item_approved]))])
            (Settle 1 (Rejected (AxiosError "Request failed with status code 500" 500))))
      !! 1
    = Some (PRejected (AxiosError "Request failed with status code 500" 500)).
Proof.
  split; [reflexivity|].
  exact (proj1 (mutation_failure_propagates mount (OnApprove 1)
                  [CallFetchReviews; Settle 2 (Fulfilled (MkResponse [item_approved]))]
                  (AxiosError "Request failed with status code 500" 500) eq_refl)).
Defined.

Lemma mutation_before_refresh_witness :
  quiet 1 [CallFetchReviews] = true
  ∧ network (step (run initial [CallFetchReviews]) (click (OnReject 1)))
    = network (run initial [CallFetchReviews]) ++ [Sent 1 (AxiosPost (ReviewReject 1))].
Proof.
  split; [reflexivity|].
  exact (proj1 (mutation_before_refresh [CallFetchReviews] (OnReject 1)
                  [CallFetchReviews] (MkResponse []) eq_refl)).
Defined.

Lemma fetch_failure_keeps_queue_witness :
  quiet 1 [] = true
  ∧ reviews (step (run (step (run initial [CallFetchReviews;
                                            Settle 0 (Fulfilled (MkResponse [item_pending]))])
                             CallFetchReviews) [])
                  (Settle 1 (Rejected network_error)))
    = reviews (run (step (run initial [CallFetchReviews;
                                       Settle 0 (Fulfilled (MkResponse [item_pending]))])
                         CallFetchReviews) []).
Proof.
  split; [reflexivity|].
  exact (proj1 (fetch_failure_keeps_queue
                  (run initial [CallFetchReviews;
                                Settle 0 (Fulfilled (MkResponse [item_pending]))])
                  [] network_error eq_refl)).
Defined.

Lemma mutation_error_passed_through_witness :
  quiet 1 [] = true
  ∧ surfaced (step (run (step mount (click (OnApprove 99))) [])
                   (Settle 1 (Rejected (AxiosError "Request failed with status code 404" 404))))
             1
    = Some (AxiosError "Request failed with status code 404" 404).
Proof.
  split; [reflexivity|].
  exact (proj1 (mutation_error_passed_through mount (OnApprove 99) []
                  (AxiosError "Request failed with status code 404" 404) eq_refl)).
Defined.

Lemma initial_queue_empty_witness :
  list_answered
    (network (run initial [CallFetchReviews;
                           Settle 0 (Rejected network_error)])) = false
  ∧ reviews (run initial [CallFetchReviews;
                          Settle 0 (Rejected network_error)]) = [].
Proof.
  split; [reflexivity|].
  exact (proj2 (proj2 (initial_queue_empty
                         [CallFetchReviews;
                          Settle 0 (Rejected network_error)]
                         eq_refl))).
Defined.

Lemma mutation_success_does_not_await_refresh_witness :
  quiet 1 [] = true
  ∧ quiet 2 [CallFetchReviews] = true
  ∧ promises
      (step (run (step (run (step (run initial [CallFetchReviews;
                                                Settle 0 (Fulfilled (MkResponse [item_pending]))])
                                  (click (OnApprove 1))) [])
                       (Settle 1 (Fulfilled (MkResponse []))))
                 [CallFetchReviews])
            (Settle 2 (Rejected network_error)))
      !! 1
    = Some PFulfilled.
Proof.
  split; [reflexivity|]. split; [reflexivity|].
  exact (proj1 (proj2 (proj2 (proj2
           (mutation_success_does_not_await_refresh
              [CallFetchReviews; Settle 0 (Fulfilled (MkResponse [item_pending]))]
              (OnApprove 1) [] [CallFetchReviews]
              (MkResponse []) network_error eq_refl eq_refl))))).
Defined.

(** * Further properties of the component *)

(** ** The base address *)

(** X1. A configured base address that is not empty is used as it is. The
    base address is never empty: besides that case it is the local
    default, and only when the variable is unset or empty. In particular
    an empty [VITE_API_URL] does not give relative URLs, it gives the
    local default. *)
Theorem API_URL_fallback (env : option string) (url : string) :
  url ≠ "" →
  API_URL (Some url) = url
  ∧ API_URL env ≠ ""
  ∧ (env = Some (API_URL env)
     ∨ (env = None ∨ env = Some "") ∧ API_URL env = "http://localhost:8000")
  ∧ API_URL (Some "") = "http://localhost:8000"
  ∧ API_URL None = "http://localhost:8000".
Proof.
  intros Hurl. split_and!; [| | |done..].
  - simpl. by rewrite decide_False.
  - destruct env as [u|]; simpl; [|done]. by case_decide.
  - destruct env as [u|]; simpl; [|auto].
    case_decide; [subst; auto | by left].
Qed.

(** ** The rendered page *)

(** X2. The click handlers of the whole page are the approve and reject
    closures of the pending items of the queue, in queue order, two per
    pending item and none for any other item. *)
Theorem page_handlers (rs : list ReviewItem) :
  handlers (App rs) =
  flat_map controls (filter (λ r, Review.status r = "PENDING") rs)
  ∧ length (handlers (App rs)) =
    2 * length (filter (λ r, Review.status r = "PENDING") rs).
Proof.
  split; [apply handlers_App|].
  rewrite handlers_App.
  induction (filter _ rs) as [|r l IH]; [done|].
  cbn [flat_map controls app length]. rewrite IH. lia.
Qed.

Lemma handler_offered (rs : list ReviewItem) (h : Handler) :
  h ∈ handlers (App rs) →
  ∃ r, r ∈ rs ∧ Review.status r = "PENDING" ∧ Review.id r = target h.
Proof.
  rewrite handlers_App. intros Hin.
  apply list_elem_of_In, in_flat_map in Hin as (r & Hr & Hh).
  apply list_elem_of_In, list_elem_of_filter in Hr as [Hp Hr].
  exists r. split_and!; [done..|].
  unfold controls in Hh. simpl in Hh.
  destruct Hh as [<-|[<-|[]]]; done.
Qed.

(** X3. A click handler of the page always belongs to an item of the queue
    whose status is [PENDING]: the page offers no action on an item that
    is not pending, nor on an id that is not in the queue. *)
Theorem page_offers_only_pending (rs : list ReviewItem) (h : Handler) :
  h ∈ handlers (App rs) →
  ∃ r, r ∈ rs ∧ Review.status r = "PENDING"
       ∧ (h = OnApprove (Review.id r) ∨ h = OnReject (Review.id r)).
Proof.
  intros Hin. destruct (handler_offered rs h Hin) as (r & Hr & Hp & Hid).
  exists r. split_and!; [done..|].
  destruct h as [id|id]; simpl in Hid; subst; auto.
Qed.

(** ** What a run leaves in the log, on the console and in the promises *)

Lemma awaits_mono w w' n s :
  network w `prefix_of` network w' → awaits w n s → awaits w' n s.
Proof.
  intros [l Hl] [[Hk Hin]|(h & Hk & Hin)]; [left | right; exists h];
    (split; [done|]); rewrite Hl; apply elem_of_app; by left.
Qed.

Lemma traced_initial : traced initial.
Proof.
  split; simpl.
  - intros n s. by rewrite lookup_empty.
  - by intros n r r' ?%elem_of_nil.
  - by intros n r ?%elem_of_nil.
  - by intros msg error ?%elem_of_nil.
  - intros p error. by rewrite lookup_empty.
Qed.

Lemma traced_new_promise w : traced w → traced (new_promise w).
Proof. intros []. by split. Qed.

Lemma traced_setReviews w value : traced w → traced (setReviews value w).
Proof. intros []. by split. Qed.

Lemma traced_settle_fulfilled w p : traced w → traced (settle p PFulfilled w).
Proof.
  intros [Ha Hu Hs Hc Hr]. split; try done. world_simpl.
  intros q error Hq. apply lookup_insert_Some in Hq as [[_ ?]|[_ Hq]]; [done|].
  by apply (Hr q).
Qed.

(** A promise is rejected with the error of a rejected POST only. *)
Lemma traced_settle_rejected w p n h error :
  traced w →
  Sent n (AxiosPost (endpoint h)) ∈ network w →
  Answered n (Rejected error) ∈ network w →
  traced (settle p (PRejected error) w).
Proof.
  intros [Ha Hu Hs Hc Hr] Hsent Hans. split; try done. world_simpl.
  intros q error' Hq. apply lookup_insert_Some in Hq as [[_ Hq]|[_ Hq]].
  - injection Hq as <-. by exists n, h.
  - by apply (Hr q).
Qed.

(** The console receives the error of a rejected list request only. *)
Lemma traced_console_error w n error :
  traced w →
  Sent n (AxiosGet Reviews) ∈ network w →
  Answered n (Rejected error) ∈ network w →
  traced (console_error "Error fetching reviews" error w).
Proof.
  intros [Ha Hu Hs Hc Hr] Hsent Hans. split; try done. world_simpl.
  intros msg error' Hin. apply elem_of_app in Hin as [Hin|Hin]; [by apply Hc|].
  apply list_elem_of_singleton in Hin. injection Hin as -> ->.
  split; [done|]. by exists n.
Qed.

Lemma traced_answered w n o : traced w → traced (answered n o w).
Proof.
  intros [Ha Hu Hs Hc Hr]. split; world_simpl.
  - intros m t Hm. apply lookup_delete_Some in Hm as [_ Hm].
    eapply awaits_mono; [|by apply Ha]. world_simpl. by apply prefix_app_r.
  - intros m r r' H1 H2.
    apply elem_of_app in H1 as [H1|H1]; [|by apply list_elem_of_singleton in H1].
    apply elem_of_app in H2 as [H2|H2]; [|by apply list_elem_of_singleton in H2].
    by apply (Hu m).
  - intros m r H1.
    apply elem_of_app in H1 as [H1|H1]; [|by apply list_elem_of_singleton in H1].
    by apply (Hs m).
  - intros msg error Hin. destruct (Hc _ _ Hin) as [-> (m & H1 & H2)].
    split; [done|]. exists m. rewrite !elem_of_app. auto.
  - intros p error Hp. destruct (Hr _ _ Hp) as (m & h & H1 & H2).
    exists m, h. rewrite !elem_of_app. auto.
Qed.

Lemma traced_suspend w p req k :
  traced w →
  (∀ e, e ∈ network w → request_of e < next_request w) →
  (k = resumption fetchReviews ∧ req = AxiosGet Reviews
   ∨ ∃ h, k = resumption (mutation h) ∧ req = AxiosPost (endpoint h)) →
  traced (suspend p req k w).
Proof.
  intros [Ha Hu Hs Hc Hr] Hl Hnew. split; world_simpl.
  - intros m t Hm. apply lookup_insert_Some in Hm as [[<- <-]|[_ Hm]].
    + destruct Hnew as [[-> ->]|(h & -> & ->)]; [left | right; exists h];
        (split; [done|]); world_simpl; apply elem_of_app; right;
        by apply list_elem_of_singleton.
    + eapply awaits_mono; [|by apply Ha]. world_simpl. by apply prefix_app_r.
  - intros m r r' H1 H2.
    apply elem_of_app in H1 as [H1|H1]; apply elem_of_app in H2 as [H2|H2].
    + by apply (Hu m).
    + apply list_elem_of_singleton in H2. injection H2 as -> ->.
      apply Hl in H1. simpl in H1. lia.
    + apply list_elem_of_singleton in H1. injection H1 as -> ->.
      apply Hl in H2. simpl in H2. lia.
    + apply list_elem_of_singleton in H1, H2. congruence.
  - intros m r H1. apply elem_of_app in H1 as [H1|H1]; [by apply (Hs m)|].
    apply list_elem_of_singleton in H1. injection H1 as -> ->.
    destruct Hnew as [[_ ->]|(h & _ & ->)]; eauto.
  - intros msg error Hin. destruct (Hc _ _ Hin) as [-> (m & H1 & H2)].
    split; [done|]. exists m. rewrite !elem_of_app. auto.
  - intros q error Hq. destruct (Hr _ _ Hq) as (m & h & H1 & H2).
    exists m, h. rewrite !elem_of_app. auto.
Qed.

Lemma traced_step w ev : coherent w → traced w → traced (step w ev).
Proof.
  intros Hw Ht.
  destruct ev as [| id | id | n o].
  - rewrite step_call_fetch.
    apply traced_suspend; [by apply traced_new_promise | apply Hw | auto].
  - change (CallHandleApprove id) with (click (OnApprove id)). rewrite step_click.
    apply traced_suspend; [by apply traced_new_promise | apply Hw | eauto].
  - change (CallHandleReject id) with (click (OnReject id)). rewrite step_click.
    apply traced_suspend; [by apply traced_new_promise | apply Hw | eauto].
  - destruct (pending w !! n) as [s|] eqn:Hn; [|by simpl; rewrite Hn].
    rewrite (step_settle _ _ _ _ Hn).
    pose proof (traced_answered w n o Ht) as Ht'.
    pose proof (coherent_answered w n o s Hw Hn) as Hw'.
    assert (Hans : Answered n o ∈ network (answered n o w)).
    { world_simpl. apply elem_of_app. right. by apply list_elem_of_singleton. }
    destruct (traced_awaits _ Ht _ _ Hn) as [[Hres Hsent]|(h & Hres & Hsent)];
      rewrite Hres; destruct o as [res|error].
    + rewrite exec_fetch_fulfilled.
      by apply traced_settle_fulfilled, traced_setReviews.
    + rewrite exec_fetch_rejected.
      apply traced_settle_fulfilled, (traced_console_error _ n); [done| |done].
      world_simpl. apply elem_of_app. by left.
    + rewrite exec_mutation_fulfilled.
      apply traced_settle_fulfilled, traced_suspend;
        [by apply traced_new_promise | apply Hw' | auto].
    + rewrite exec_mutation_rejected.
      apply (traced_settle_rejected _ _ n h); [done| |done].
      world_simpl. apply elem_of_app. by left.
Qed.

Lemma traced_run w evs : coherent w → traced w → traced (run w evs).
Proof.
  revert w. induction evs as [|ev evs IH]; intros w Hw Ht; simpl; [done|].
  apply IH; [by apply coherent_step | by apply traced_step].
Qed.

Lemma traced_reachable evs : traced (run initial evs).
Proof. apply traced_run; [apply coherent_initial | apply traced_initial]. Qed.

(** X4. In every world the component reaches, every line on the console is
    an ["Error fetching reviews"] line carrying the error of a rejected
    list request: a failed approve or reject is never logged. *)
Theorem console_logs_fetch_failures_only
    (evs : list Event) (msg : string) (error : JsError) :
  (msg, error) ∈ console (run initial evs) →
  msg = "Error fetching reviews"
  ∧ ∃ n, Sent n (AxiosGet Reviews) ∈ network (run initial evs)
         ∧ Answered n (Rejected error) ∈ network (run initial evs).
Proof. apply (traced_console _ (traced_reachable evs)). Qed.

(** X5. In every world the component reaches, a rejected promise carries the
    error of a rejected approve or reject POST: the promise of a
    [fetchReviews] call is never rejected, whatever its request does. *)
Theorem only_mutations_reject
    (evs : list Event) (p : nat) (error : JsError) :
  promises (run initial evs) !! p = Some (PRejected error) →
  ∃ n h, Sent n (AxiosPost (endpoint h)) ∈ network (run initial evs)
         ∧ Answered n (Rejected error) ∈ network (run initial evs).
Proof. apply (traced_rejected _ (traced_reachable evs)). Qed.

(** X6. In every world the component reaches, a request of the log is the
    GET of the review list or the POST of an approve or a reject URL
    (never a GET of an action URL, never a POST of the list), and a
    request number is used for one request only. *)
Theorem requests_well_formed
    (evs : list Event) (n : nat) (r : Request) :
  Sent n r ∈ network (run initial evs) →
  (r = AxiosGet Reviews ∨ ∃ h, r = AxiosPost (endpoint h))
  ∧ ∀ r', Sent n r' ∈ network (run initial evs) → r' = r.
Proof.
  intros Hin. split.
  - by apply (traced_shape _ (traced_reachable evs) n).
  - intros r' Hin'. by apply (traced_unique _ (traced_reachable evs) n).
Qed.

(** ** Runs driven through the page *)

Lemma browse_run w evs w' : browse w evs = Some w' → w' = run w evs.
Proof.
  revert w. induction evs as [|ev evs IH]; intros w; simpl.
  - by intros [= <-].
  - destruct (offered w ev); [apply IH | done].
Qed.

Lemma step_network w ev : network w `prefix_of` network (step w ev).
Proof. apply (run_network w [ev]). Qed.

(** The requests one step sends: only a click sends a POST. *)
Lemma step_sends w ev n r :
  coherent w → Sent n r ∈ network (step w ev) →
  Sent n r ∈ network w
  ∨ r = AxiosGet Reviews
  ∨ ∃ h, ev = click h ∧ r = AxiosPost (endpoint h).
Proof.
  intros Hw.
  assert (Hlast : ∀ log req, Sent n r ∈ log ++ [Sent (next_request w) req] →
                             Sent n r ∈ log ∨ r = req).
  { intros log req Hin. apply elem_of_app in Hin as [Hin|Hin]; [by left|].
    apply list_elem_of_singleton in Hin. injection Hin as -> ->. by right. }
  destruct ev as [| id | id | m o].
  - rewrite step_call_fetch. world_simpl. intros [?|?]%Hlast; auto.
  - change (CallHandleApprove id) with (click (OnApprove id)). rewrite step_click.
    world_simpl. intros [?|?]%Hlast; eauto.
  - change (CallHandleReject id) with (click (OnReject id)). rewrite step_click.
    world_simpl. intros [?|?]%Hlast; eauto.
  - destruct (pending w !! m) as [s|] eqn:Hm; [|simpl; rewrite Hm; auto].
    rewrite (step_settle _ _ _ _ Hm).
    assert (Hans : Sent n r ∈ network w ++ [Answered m o] → Sent n r ∈ network w).
    { intros Hin. apply elem_of_app in Hin as [Hin|Hin]; [done|].
      by apply list_elem_of_singleton in Hin. }
    destruct (coherent_known _ Hw _ _ Hm) as [[Hres _]|[h Hres]];
      rewrite Hres; destruct o as [res|error].
    + rewrite exec_fetch_fulfilled. world_simpl. auto.
    + rewrite exec_fetch_rejected. world_simpl. auto.
    + rewrite exec_mutation_fulfilled. world_simpl.
      intros Hin. apply elem_of_app in Hin as [Hin|Hin]; [auto|].
      apply list_elem_of_singleton in Hin. injection Hin as -> ->. auto.
    + rewrite exec_mutation_rejected. world_simpl. auto.
Qed.

Lemma backed_mono w w' h :
  network w `prefix_of` network w' → backed w h → backed w' h.
Proof.
  intros [l Hl] (m & res & r & H1 & H2 & H3).
  exists m, res, r. rewrite Hl, !elem_of_app. auto.
Qed.

Lemma endpoint_inj h h' : endpoint h = endpoint h' → h = h'.
Proof. destruct h, h'; simpl; congruence. Qed.

(** A click that the page offers is on an item the backend returned as
    pending. *)
Lemma offered_backed w h :
  coherent w → offered w (click h) = true → backed w h.
Proof.
  intros Hw Hoff.
  assert (Hin : h ∈ handlers (App (reviews w))).
  { destruct h; simpl in Hoff; by apply bool_decide_eq_true in Hoff. }
  destruct (handler_offered _ _ Hin) as (r & Hr & Hp & Hid).
  destruct (coherent_queue _ Hw) as [Hnil|(m & res & H1 & H2 & Hd)].
  - rewrite Hnil in Hr. by apply elem_of_nil in Hr.
  - exists m, res, r. rewrite <- Hd. auto.
Qed.

Lemma browse_posts_backed w evs w' :
  coherent w →
  (∀ n h, Sent n (AxiosPost (endpoint h)) ∈ network w → backed w h) →
  browse w evs = Some w' →
  ∀ n h, Sent n (AxiosPost (endpoint h)) ∈ network w' → backed w' h.
Proof.
  revert w. induction evs as [|ev evs IH]; intros w Hw Hinv; simpl.
  - by intros [= <-].
  - destruct (offered w ev) eqn:Hoff; [|done].
    apply IH; [by apply coherent_step|].
    intros n h Hin. apply (backed_mono w); [apply step_network|].
    destruct (step_sends w ev n _ Hw Hin) as [Hold|[Hget|(h' & -> & Hpost)]].
    + by apply (Hinv n).
    + discriminate Hget.
    + injection Hpost as ->%endpoint_inj. by apply offered_backed.
Qed.

(** X7. In a run that goes through the page (every handler call is a click on
    a rendered button), each approve or reject POST the component sends
    is for an id that some answered list request returned with status
    [PENDING]: the component never posts an action for an id the backend
    did not itself offer as pending. *)
Theorem posts_only_for_offered_items
    (evs : list Event) (w : World) (n : nat) (h : Handler) :
  browse initial evs = Some w →
  Sent n (AxiosPost (endpoint h)) ∈ network w →
  w = run initial evs ∧ backed w h.
Proof.
  intros Hb Hin. split; [by apply browse_run|].
  eapply (browse_posts_backed initial evs w); [apply coherent_initial | |done..].
  by intros m h' ?%elem_of_nil.
Qed.

(** X8. Until a list request has been answered with a response the page
    offers no click at all: no approve or reject can be started before
    the first list of reviews has arrived. *)
Theorem no_click_before_first_list (evs : list Event) (h : Handler) :
  list_answered (network (run initial evs)) = false →
  handlers (render (run initial evs)) = []
  ∧ offered (run initial evs) (click h) = false.
Proof.
  intros Hno.
  assert (Hnil : reviews (run initial evs) = []).
  { destruct (coherent_queue _ (coherent_reachable evs))
      as [Hnil|(n & res & Hs & Ha & _)]; [done|].
    by rewrite (list_answered_intro _ n res Hs Ha) in Hno. }
  assert (Hh : handlers (render (run initial evs)) = []).
  { unfold render. by rewrite Hnil. }
  split; [done|].
  destruct h; unfold offered, click; rewrite Hh;
    apply bool_decide_eq_false; by intros ?%elem_of_nil.
Qed.

(** ** One refresh per successful mutation *)

Lemma count_app {A} (f : A → bool) (l l' : list A) :
  count f (l ++ l') = count f l + count f l'.
Proof. unfold count. by rewrite List.filter_app, length_app. Qed.

Lemma count_nil {A} (f : A → bool) : count f [] = 0.
Proof. done. Qed.

Lemma count_cons {A} (f : A → bool) (x : A) (l : list A) :
  count f (x :: l) = (if f x then 1 else 0) + count f l.
Proof. unfold count. simpl. by destruct (f x). Qed.

Lemma existsb_none {A} (f : A → bool) (l : list A) :
  (∀ x, x ∈ l → f x = false) → existsb f l = false.
Proof.
  induction l as [|x l IH]; intros Hf; simpl; [done|].
  rewrite (Hf x), IH; [done| |]; [|by apply elem_of_cons; left].
  intros y Hy. apply Hf, elem_of_cons. by right.
Qed.

(** Entries added at the end of the log do not change which of the older
    entries are fulfilled POSTs, as long as they send no POST under an
    old number. *)
Lemma post_fulfilled_stable (log l : list NetEvent) :
  (∀ e x, e ∈ log → x ∈ l → is_post_of (request_of e) x = false) →
  count (is_post_fulfilled (log ++ l)) log = count (is_post_fulfilled log) log.
Proof.
  intros Hl. unfold count. f_equal. apply List.filter_ext_in.
  intros e He%list_elem_of_In.
  destruct e as [n r|n [res|error]]; simpl; try done.
  rewrite existsb_app, (existsb_none _ l), orb_false_r; [done|].
  intros x Hx. by apply (Hl (Answered n (Fulfilled res))).
Qed.

Lemma count_extend (log l : list NetEvent) :
  (∀ e x, e ∈ log → x ∈ l → is_post_of (request_of e) x = false) →
  count (is_post_fulfilled (log ++ l)) (log ++ l) =
  count (is_post_fulfilled log) log + count (is_post_fulfilled (log ++ l)) l.
Proof. intros Hl. by rewrite count_app, post_fulfilled_stable. Qed.

(** How one step moves the two counters. *)
Lemma count_step w ev :
  coherent w → traced w →
  count is_get (network (step w ev))
  + count (is_post_fulfilled (network w)) (network w)
  = count is_get (network w)
    + count (is_post_fulfilled (network (step w ev))) (network (step w ev))
    + (if is_fetch_call ev then 1 else 0).
Proof.
  intros Hw Ht.
  assert (Hfresh : ∀ e req, e ∈ network w →
            is_post_of (request_of e) (Sent (next_request w) req) = false).
  { intros e req He. apply (coherent_logged _ Hw) in He.
    destruct req; simpl; [done|]. apply bool_decide_eq_false. lia. }
  assert (Hsent : ∀ req,
            count is_get (network w ++ [Sent (next_request w) req])
            + count (is_post_fulfilled (network w)) (network w)
            = count is_get (network w)
              + count (is_post_fulfilled (network w ++ [Sent (next_request w) req]))
                      (network w ++ [Sent (next_request w) req])
              + (if is_get (Sent (next_request w) req) then 1 else 0)).
  { intros req. rewrite count_extend, count_app.
    - rewrite !count_cons, !count_nil. destruct req; simpl; lia.
    - intros e x He ->%list_elem_of_singleton. by apply Hfresh. }
  destruct ev as [| id | id | n o].
  - rewrite step_call_fetch. world_simpl. apply Hsent.
  - change (CallHandleApprove id) with (click (OnApprove id)). rewrite step_click.
    world_simpl. rewrite Hsent. simpl. lia.
  - change (CallHandleReject id) with (click (OnReject id)). rewrite step_click.
    world_simpl. rewrite Hsent. simpl. lia.
  - destruct (pending w !! n) as [s|] eqn:Hn; [|simpl; rewrite Hn; simpl; lia].
    rewrite (step_settle _ _ _ _ Hn).
    assert (Hans : ∀ e x, e ∈ network w → x ∈ [Answered n o] →
                          is_post_of (request_of e) x = false).
    { by intros e x _ ->%list_elem_of_singleton. }
    destruct (traced_awaits _ Ht _ _ Hn) as [[Hres Hs]|(h & Hres & Hs)];
      rewrite Hres.
    + (* the answer to a list request: not a POST *)
      assert (Hnot : existsb (is_post_of n) (network w ++ [Answered n o]) = false).
      { apply existsb_none. intros x Hx.
        apply elem_of_app in Hx as [Hx|Hx];
          [|by apply list_elem_of_singleton in Hx as ->].
        destruct x as [m [u|u]|]; simpl; try done.
        apply bool_decide_eq_false. intros ->.
        by pose proof (traced_unique _ Ht _ _ _ Hs Hx). }
      destruct o as [res|error].
      * rewrite exec_fetch_fulfilled. world_simpl.
        rewrite (count_extend _ _ Hans), count_app.
        rewrite !count_cons, !count_nil. cbn [is_get is_post_fulfilled is_fetch_call].
        rewrite Hnot. lia.
      * rewrite exec_fetch_rejected. world_simpl.
        rewrite (count_extend _ _ Hans), count_app.
        rewrite !count_cons, !count_nil. cbn [is_get is_post_fulfilled is_fetch_call]. lia.
    + (* the answer to a POST *)
      destruct o as [res|error].
      * rewrite exec_mutation_fulfilled. world_simpl.
        rewrite <- app_assoc. simpl.
        assert (Hyes : existsb (is_post_of n)
                         (network w ++ [Answered n (Fulfilled res);
                                        Sent (next_request w) (AxiosGet Reviews)])
                       = true).
        { apply existsb_exists. exists (Sent n (AxiosPost (endpoint h))).
          split; [apply list_elem_of_In, elem_of_app; by left|].
          simpl. by apply bool_decide_eq_true. }
        rewrite count_extend, count_app.
        -- rewrite !count_cons, !count_nil. cbn [is_get is_post_fulfilled is_fetch_call].
           rewrite Hyes. lia.
        -- intros e x He Hx.
           apply elem_of_cons in Hx as [->|Hx]; [done|].
           apply list_elem_of_singleton in Hx as ->. by apply Hfresh.
      * rewrite exec_mutation_rejected. world_simpl.
        rewrite (count_extend _ _ Hans), count_app.
        rewrite !count_cons, !count_nil. cbn [is_get is_post_fulfilled is_fetch_call]. lia.
Qed.

Lemma count_run w evs :
  coherent w → traced w →
  count is_get (network (run w evs))
  + count (is_post_fulfilled (network w)) (network w)
  = count is_get (network w)
    + count (is_post_fulfilled (network (run w evs))) (network (run w evs))
    + count is_fetch_call evs.
Proof.
  revert w. induction evs as [|ev evs IH]; intros w Hw Ht.
  - simpl. rewrite count_nil. lia.
  - pose proof (count_step w ev Hw Ht) as Hstep.
    pose proof (IH (step w ev) (coherent_step _ _ Hw) (traced_step _ _ Hw Ht)) as Hrun.
    change (run w (ev :: evs)) with (run (step w ev) evs).
    rewrite count_cons. lia.
Qed.

(** X9. In every world the component reaches, the number of list requests
    sent equals the number of [fetchReviews] calls made from outside (the
    mount effect) plus the number of approve and reject POSTs that were
    fulfilled: each successful mutation is followed by exactly one
    refresh, a failed one by none. *)
Theorem one_refresh_per_success (evs : list Event) :
  let w := run initial evs in
  count is_get (network w)
  = count is_fetch_call evs
    + count (is_post_fulfilled (network w)) (network w).
Proof.
  intros w.
  pose proof (count_run initial evs coherent_initial traced_initial) as H.
  fold w in H. change (network initial) with (@nil NetEvent) in H.
  rewrite !count_nil in H. lia.
Qed.

(** ** Overlapping calls *)

Lemma quiet_other n m o : m ≠ n → quiet n [Settle m o] = true.
Proof. intros Hne. simpl. by rewrite bool_decide_eq_false_2. Qed.

(** X10. With two [fetchReviews] calls in flight the queue ends as the body of
    the response that arrives last, whichever request it answers: a late
    answer to the older request replaces the body of the newer one. *)
Theorem last_answer_wins (w : World) (res1 res2 : Response) :
  let n := next_request w in
  reviews (run w [CallFetchReviews; CallFetchReviews;
                  Settle (S n) (Fulfilled res2); Settle n (Fulfilled res1)])
  = data res1
  ∧ reviews (run w [CallFetchReviews; CallFetchReviews;
                    Settle n (Fulfilled res1); Settle (S n) (Fulfilled res2)])
    = data res2.
Proof.
  intros n. split.
  - change (run w [CallFetchReviews; CallFetchReviews;
                   Settle (S n) (Fulfilled res2); Settle n (Fulfilled res1)])
      with (step (run (step w CallFetchReviews)
                      [CallFetchReviews; Settle (S n) (Fulfilled res2)])
                 (Settle (next_request w) (Fulfilled res1))).
    apply fetch_success_queue. simpl. rewrite bool_decide_eq_false_2; [done|].
    unfold n. lia.
  - set (w' := step w CallFetchReviews).
    change (run w [CallFetchReviews; CallFetchReviews;
                   Settle n (Fulfilled res1); Settle (S n) (Fulfilled res2)])
      with (step (run (step w' CallFetchReviews) [Settle n (Fulfilled res1)])
                 (Settle (next_request w') (Fulfilled res2))).
    apply fetch_success_queue, quiet_other. unfold w', n. simpl. lia.
Qed.

(** X11. A click changes nothing on the page, so the same button can be
    clicked again while its request is in flight; the second click sends
    a second POST for the same id, and when both are fulfilled each is
    followed by its own refresh. Nothing in the component merges or drops
    a repeated action. *)
Theorem double_click_posts_twice (w : World) (h : Handler) (ok1 ok2 : Response) :
  let n := next_request w in
  let w2 := run w [click h; click h] in
  render (step w (click h)) = render w
  ∧ network w2 = network w ++ [Sent n (AxiosPost (endpoint h));
                               Sent (S n) (AxiosPost (endpoint h))]
  ∧ network (run w2 [Settle n (Fulfilled ok1); Settle (S n) (Fulfilled ok2)])
    = network w2 ++ [Answered n (Fulfilled ok1);
                     Sent (S (S n)) (AxiosGet Reviews);
                     Answered (S n) (Fulfilled ok2);
                     Sent (S (S (S n))) (AxiosGet Reviews)].
Proof.
  intros n w2.
  set (w1 := step w (click h)).
  assert (Hn1 : next_request w1 = S n).
  { unfold w1. by rewrite step_click. }
  assert (Hw2 : w2 = step w1 (click h)) by done.
  assert (Hn2 : next_request w2 = S (S n)).
  { rewrite Hw2, step_click. world_simpl. by rewrite Hn1. }
  split_and!.
  - unfold render, w1. by rewrite step_click.
  - rewrite Hw2, step_click. unfold w1. rewrite step_click. world_simpl.
    by rewrite <- app_assoc.
  - assert (Hq1 : quiet (next_request w) [click h] = true) by by destruct h.
    assert (Hq2 : quiet (next_request w1) [Settle n (Fulfilled ok1)] = true).
    { apply quiet_other. lia. }
    pose proof (mutation_answer_fulfilled w [click h] Hq1 h ok1) as H3.
    pose proof (mutation_answer_fulfilled w1 [Settle n (Fulfilled ok1)] Hq2 h ok2) as H4.
    cbv zeta in H3, H4.
    change (run (step w (click h)) [click h]) with w2 in H3.
    change (run (step w1 (click h)) [Settle n (Fulfilled ok1)])
      with (step w2 (Settle (next_request w) (Fulfilled ok1))) in H4.
    rewrite Hn1 in H4.
    change (run w2 [Settle n (Fulfilled ok1); Settle (S n) (Fulfilled ok2)])
      with (step (step w2 (Settle (next_request w) (Fulfilled ok1)))
                 (Settle (S n) (Fulfilled ok2))).
    rewrite H4. world_simpl. rewrite H3. world_simpl. rewrite Hn2.
    by rewrite <- !app_assoc.
Qed.

(** ** The further properties at concrete runs *)

Lemma page_offers_only_pending_witness :
  OnReject 1 ∈ handlers (App [item_approved; item_pending])
  ∧ ∃ r, r ∈ [item_approved; item_pending]
         ∧ Review.status r = "PENDING"
         ∧ (OnReject 1 = OnApprove (Review.id r) ∨ OnReject 1 = OnReject (Review.id r)).
Proof.
  assert (H : OnReject 1 ∈ handlers (App [item_approved; item_pending])).
  { apply (bool_decide_unpack _). vm_compute. exact I. }
  split; [exact H|].
  exact (page_offers_only_pending [item_approved; item_pending] (OnReject 1) H).
Defined.

Lemma console_logs_fetch_failures_only_witness :
  ("Error fetching reviews", network_error)
    ∈ console (run initial [CallFetchReviews; Settle 0 (Rejected network_error)])
  ∧ ∃ n, Sent n (AxiosGet Reviews)
           ∈ network (run initial [CallFetchReviews; Settle 0 (Rejected network_error)])
         ∧ Answered n (Rejected network_error)
           ∈ network (run initial [CallFetchReviews; Settle 0 (Rejected network_error)]).
Proof.
  assert (H : ("Error fetching reviews", network_error)
                ∈ console (run initial [CallFetchReviews;
                                        Settle 0 (Rejected network_error)])).
  { vm_compute. apply list_elem_of_singleton. reflexivity. }
  split; [exact H|].
  exact (proj2 (console_logs_fetch_failures_only
                  [CallFetchReviews; Settle 0 (Rejected network_error)]
                  "Error fetching reviews" network_error H)).
Defined.

Lemma only_mutations_reject_witness :
  promises (run initial [CallHandleReject 5; Settle 0 (Rejected network_error)]) !! 0
  = Some (PRejected network_error)
  ∧ ∃ n h, Sent n (AxiosPost (endpoint h))
             ∈ network (run initial [CallHandleReject 5; Settle 0 (Rejected network_error)])
           ∧ Answered n (Rejected network_error)
             ∈ network (run initial [CallHandleReject 5; Settle 0 (Rejected network_error)]).
Proof.
  split; [reflexivity|].
  exact (only_mutations_reject
           [CallHandleReject 5; Settle 0 (Rejected network_error)]
           0 network_error eq_refl).
Defined.

Lemma requests_well_formed_witness :
  Sent 0 (AxiosGet Reviews) ∈ network (run initial [CallFetchReviews])
  ∧ (AxiosGet Reviews = AxiosGet Reviews
     ∨ ∃ h, AxiosGet Reviews = AxiosPost (endpoint h)).
Proof.
  assert (H : Sent 0 (AxiosGet Reviews) ∈ network (run initial [CallFetchReviews])).
  { vm_compute. apply list_elem_of_singleton. reflexivity. }
  split; [exact H|].
  exact (proj1 (requests_well_formed [CallFetchReviews] 0 (AxiosGet Reviews) H)).
Defined.

Lemma posts_only_for_offered_items_witness :
  browse initial [CallFetchReviews;
                  Settle 0 (Fulfilled (MkResponse [item_pending]));
                  CallHandleApprove 1]
  = Some (run initial [CallFetchReviews;
                       Settle 0 (Fulfilled (MkResponse [item_pending]));
                       CallHandleApprove 1])
  ∧ Sent 1 (AxiosPost (endpoint (OnApprove 1)))
      ∈ network (run initial [CallFetchReviews;
                              Settle 0 (Fulfilled (MkResponse [item_pending]));
                              CallHandleApprove 1])
  ∧ backed (run initial [CallFetchReviews;
                         Settle 0 (Fulfilled (MkResponse [item_pending]));
                         CallHandleApprove 1])
           (OnApprove 1).
Proof.
  assert (H : Sent 1 (AxiosPost (endpoint (OnApprove 1)))
                ∈ network (run initial [CallFetchReviews;
                                        Settle 0 (Fulfilled (MkResponse [item_pending]));
                                        CallHandleApprove 1])).
  { vm_compute. do 2 apply list_elem_of_further. apply list_elem_of_here. }
  split; [reflexivity|]. split; [exact H|].
  exact (proj2 (posts_only_for_offered_items
                  [CallFetchReviews;
                   Settle 0 (Fulfilled (MkResponse [item_pending]));
                   CallHandleApprove 1]
                  _ 1 (OnApprove 1) eq_refl H)).
Defined.

Lemma no_click_before_first_list_witness :
  list_answered (network (run initial [CallFetchReviews])) = false
  ∧ offered (run initial [CallFetchReviews]) (click (OnApprove 1)) = false.
Proof.
  split; [reflexivity|].
  exact (proj2 (no_click_before_first_list [CallFetchReviews] (OnApprove 1) eq_refl)).
Defined.

Lemma API_URL_fallback_witness :
  "https://reviews.example.org" ≠ ""
  ∧ API_URL (Some "https://reviews.example.org") = "https://reviews.example.org".
Proof.
  assert (H : "https://reviews.example.org" ≠ "") by discriminate.
  split; [exact H|].
  exact (proj1 (API_URL_fallback None "https://reviews.example.org" H)).
Defined.
